(** * Verification development for the ECS Insights demo application stack.

    Part I embeds [src/lib/application-stack.ts]: the construction of the
    [ApplicationStack] is a straight-line sequence of construct calls, which
    is modelled as explicit state passing over a record of declared
    resources.  Token-valued attributes of the provisioning library (such as
    [cacheCluster.attrRedisEndpointAddress]) are kept symbolic as [Tok]
    fragments; string concatenation with [+] appends fragments.

    Part II models, from the spec, the orchestration engine that the spec
    describes as the system behind these declarations (topology, plan
    emitter, endpoint resolver, builders); the repository itself contains
    no such component. *)

From Stdlib Require Import String Ascii List Bool Arith Lia ZArith ListDec.
From Stdlib Require Import Permutation.
Import ListNotations.

(* ================================================================== *)
(** * Part I: the application stack *)
(* ================================================================== *)

Module ApplicationStack.

Local Open Scope string_scope.

(** A string value as produced by the provisioning library: literal text
    and unresolved attribute tokens, joined by [+]. *)
Inductive Frag : Type :=
| Lit (s : string)
| Tok (logicalId attr : string).

Definition Value := list Frag.

Definition lit (s : string) : Value := [Lit s].
Definition plus (a b : Value) : Value := List.app a b.
Infix "+++" := plus (at level 60, right associativity).

Inductive Protocol : Type := TCP | UDP.

Record PortMapping : Type := mkPortMapping {
  containerPort : N;
  protocol : Protocol
}.

Inductive ContainerImage : Type :=
| fromDockerImageAsset (assetId : string)
| fromRegistry (name : string).

Record ContainerDefinition : Type := mkContainer {
  c_name : string;
  c_image : ContainerImage;
  c_environment : list (string * Value);
  c_portMappings : list PortMapping
}.

(** [Port.tcp n] *)
Record Port : Type := mkPort { port_protocol : Protocol; port_number : N }.

Record Connections : Type := mkConnections {
  securityGroups : list string;
  defaultPort : option Port
}.

Inductive ServiceKind : Type := AlbFargateService | Ec2ServiceKind.

Record ServiceDecl : Type := mkService {
  svc_id : string;
  svc_kind : ServiceKind;
  serviceName : string;
  desiredCount : nat;
  assignPublicIp : option bool;
  containers : list ContainerDefinition;
  taskRolePolicies : list string;
  healthCheckPath : option string;
  (** peers passed to [service.connections.allowToDefaultPort] *)
  allowedToDefaultPort : list Connections
}.

(** An entry of [scalingSteps] of [scaleOnMetric]. *)
Record ScalingInterval : Type := mkInterval {
  lower : option Z;
  upper : option Z;
  change : Z
}.

Record CacheCluster : Type := mkCacheCluster {
  cache_id : string;
  cacheNodeType : string;
  engine : string;
  numCacheNodes : nat;
  cacheSubnetGroupName : string;
  vpcSecurityGroupIds : list string;
  cache_dependsOn : list string
}.

(** Registration on the private DNS namespace:
    [createService(id, {name}).registerLoadBalancer('lb', svc.loadBalancer)]. *)
Record NsRegistration : Type := mkNsRegistration {
  reg_id : string;
  reg_name : string;
  reg_loadBalancerOf : string
}.

Record StackState : Type := mkStack {
  st_scalingSteps : list ScalingInterval;
  st_namespaceName : string;
  st_cache : option CacheCluster;
  st_services : list ServiceDecl;
  st_registrations : list NsRegistration
}.

Definition emptyStack : StackState :=
  mkStack [] "" None [] [].

Definition add_service (s : ServiceDecl) (st : StackState) : StackState :=
  mkStack (st_scalingSteps st) (st_namespaceName st) (st_cache st)
          (List.app (st_services st) [s]) (st_registrations st).

Definition update_service (id : string) (f : ServiceDecl -> ServiceDecl)
    (st : StackState) : StackState :=
  mkStack (st_scalingSteps st) (st_namespaceName st) (st_cache st)
          (map (fun s => if String.eqb (svc_id s) id then f s else s)
               (st_services st))
          (st_registrations st).

Definition with_containers (s : ServiceDecl) cs : ServiceDecl :=
  mkService (svc_id s) (svc_kind s) (serviceName s) (desiredCount s)
    (assignPublicIp s) cs (taskRolePolicies s) (healthCheckPath s)
    (allowedToDefaultPort s).

(** [svc.taskDefinition.addContainer(name, {image}).addPortMappings(pm)] *)
Definition addContainer (id name : string) (img : ContainerImage)
    (pm : PortMapping) (st : StackState) : StackState :=
  update_service id
    (fun s => with_containers s (List.app (containers s) [mkContainer name img [] [pm]]))
    st.

(** [svc.taskDefinition.taskRole.addManagedPolicy(
      ManagedPolicy.fromAwsManagedPolicyName(p))] *)
Definition addManagedPolicy (id p : string) (st : StackState) : StackState :=
  update_service id
    (fun s => mkService (svc_id s) (svc_kind s) (serviceName s)
       (desiredCount s) (assignPublicIp s) (containers s)
       (List.app (taskRolePolicies s) [p]) (healthCheckPath s)
       (allowedToDefaultPort s))
    st.

(** [svc.targetGroup.configureHealthCheck({path, ...})] *)
Definition configureHealthCheck (id path : string) (st : StackState)
    : StackState :=
  update_service id
    (fun s => mkService (svc_id s) (svc_kind s) (serviceName s)
       (desiredCount s) (assignPublicIp s) (containers s)
       (taskRolePolicies s) (Some path) (allowedToDefaultPort s))
    st.

(** [svc.service.connections.allowToDefaultPort(other)] *)
Definition allowToDefaultPort (id : string) (other : Connections)
    (st : StackState) : StackState :=
  update_service id
    (fun s => mkService (svc_id s) (svc_kind s) (serviceName s)
       (desiredCount s) (assignPublicIp s) (containers s)
       (taskRolePolicies s) (healthCheckPath s)
       (List.app (allowedToDefaultPort s) [other]))
    st.

Definition createService (regId name lbOf : string) (st : StackState)
    : StackState :=
  mkStack (st_scalingSteps st) (st_namespaceName st) (st_cache st)
          (st_services st) (List.app (st_registrations st) [mkNsRegistration regId name lbOf]).

(** [new ApplicationLoadBalancedFargateService(this, id, {...})]: the task
    definition gets the library's main container ["web"]. *)
Definition applicationLoadBalancedFargateService (id name asset : string)
    (port : N) (env : list (string * Value)) (publicIp : option bool)
    : ServiceDecl :=
  mkService id AlbFargateService name 1 publicIp
    [mkContainer "web" (fromDockerImageAsset asset) env [mkPortMapping port TCP]]
    [] None [].

(** The X-Ray sidecar block repeated after each load-balanced service. *)
Definition xray_block (id : string) (st : StackState) : StackState :=
  addManagedPolicy id "AWSXRayDaemonWriteAccess"
    (addContainer id "xray-daemon" (fromRegistry "amazon/aws-xray-daemon")
       (mkPortMapping 2000%N UDP) st).

Definition cacheSecurityGroup : string := "CacheSecurityGroup".

Definition cacheConnection : Connections :=
  mkConnections [cacheSecurityGroup] (Some (mkPort TCP 6379%N)).

Definition attrRedisEndpointAddress : Value :=
  [Tok "RedisCache" "RedisEndpoint.Address"].
Definition attrRedisEndpointPort : Value :=
  [Tok "RedisCache" "RedisEndpoint.Port"].

Definition namespaceName : Value := lit "anycompany.internal".

Definition redis_endpoint : Value :=
  lit "redis://" +++ attrRedisEndpointAddress +++ lit ":"
    +++ attrRedisEndpointPort +++ lit "/0".

Definition endpoint_of (prefix : string) : Value :=
  lit prefix +++ namespaceName.

(** The constructor of [ApplicationStack] (lines 14-291). *)
Definition application_stack (id : string) : StackState :=
  (* VPC, cluster, capacity with its step scaling policy *)
  let st := mkStack
      [mkInterval None (Some 10%Z) (-1)%Z;
       mkInterval (Some 50%Z) None 1%Z;
       mkInterval (Some 70%Z) None 3%Z]
      "anycompany.internal" None [] [] in
  (* ElastiCache *)
  let cacheSubnetGroupName := id ++ "-subnet-group" in
  let cacheCluster :=
      mkCacheCluster "RedisCache" "cache.t2.micro" "redis" 1
        cacheSubnetGroupName [cacheSecurityGroup] ["CacheSubnetGroup"] in
  let st := mkStack (st_scalingSteps st) (st_namespaceName st)
              (Some cacheCluster) (st_services st) (st_registrations st) in
  (* Image Service *)
  let st := add_service (applicationLoadBalancedFargateService "ImageService"
              "imageservice" "ImageServiceImage" 9000%N [] (Some false)) st in
  let st := xray_block "ImageService" st in
  let st := configureHealthCheck "ImageService" "/healthz" st in
  let st := createService "image" "image" "ImageService" st in
  (* Catalog Service *)
  let st := add_service (applicationLoadBalancedFargateService "CatalogService"
              "catalogservice" "CatalogServiceImage" 8080%N [] (Some false)) st in
  let st := xray_block "CatalogService" st in
  let st := configureHealthCheck "CatalogService" "/api/v1/healthz" st in
  let st := createService "catalog" "catalog" "CatalogService" st in
  (* Cart Service *)
  let st := add_service (applicationLoadBalancedFargateService "CartService"
              "cartservice" "CartServiceImage" 8080%N
              [("REDIS_ENDPOINT", redis_endpoint);
               ("CATALOG_ENDPOINT", endpoint_of "catalog.")] (Some false)) st in
  let st := xray_block "CartService" st in
  let st := configureHealthCheck "CartService" "/api/v1/healthz" st in
  let st := allowToDefaultPort "CartService" cacheConnection st in
  let st := createService "cart" "cart" "CartService" st in
  (* Order Service *)
  let st := add_service (applicationLoadBalancedFargateService "OrderService"
              "orderservice" "OrderServiceImage" 8080%N
              [("CART_ENDPOINT", endpoint_of "cart.");
               ("CATALOG_ENDPOINT", endpoint_of "catalog.")] (Some false)) st in
  let st := xray_block "OrderService" st in
  let st := configureHealthCheck "OrderService" "/api/v1/healthz" st in
  let st := createService "order" "order" "OrderService" st in
  (* Recommender Service *)
  let st := add_service (applicationLoadBalancedFargateService
              "RecommenderService" "recommenderservice"
              "RecommenderServiceImage" 8080%N
              [("CATALOG_ENDPOINT", endpoint_of "catalog.")] (Some false)) st in
  let st := xray_block "RecommenderService" st in
  let st := configureHealthCheck "RecommenderService" "/api/v1/healthz" st in
  let st := createService "recommender" "recommender" "RecommenderService" st in
  (* Frontend Service *)
  let st := add_service (applicationLoadBalancedFargateService "FrontendService"
              "frontendservice" "FrontendImage" 8080%N
              [("REDIS_ENDPOINT", redis_endpoint);
               ("IMAGE_ENDPOINT", endpoint_of "image.");
               ("CATALOG_ENDPOINT", endpoint_of "catalog.");
               ("CART_ENDPOINT", endpoint_of "cart.");
               ("ORDER_ENDPOINT", endpoint_of "order.");
               ("RECOMMENDER_ENDPOINT", endpoint_of "recommender.")] None) st in
  let st := xray_block "FrontendService" st in
  let st := configureHealthCheck "FrontendService" "/healthz" st in
  let st := allowToDefaultPort "FrontendService" cacheConnection st in
  (* Load generator: an EC2 task definition and service *)
  let st := add_service (mkService "LoadGenerator" Ec2ServiceKind
              "loadgenerator" 1 None
              [mkContainer "generator" (fromDockerImageAsset "LoadGeneratorImage")
                 [("FRONTEND_ADDR",
                   [Tok "FrontendService" "LoadBalancer.DNSName"])] []]
              [] None []) st in
  st.

(** Environment of a service: the entries of all its containers. *)
Definition service_environment (s : ServiceDecl) : list (string * Value) :=
  flat_map c_environment (containers s).

(** Does a value mention an attribute token of the given resource? *)
Definition references (logicalId : string) (v : Value) : bool :=
  existsb (fun f => match f with Tok i _ => String.eqb i logicalId | _ => false end) v.

Definition references_cache (s : ServiceDecl) : bool :=
  existsb (fun kv => references "RedisCache" (snd kv)) (service_environment s).

Definition connected_to_cache (s : ServiceDecl) : bool :=
  existsb (fun c => existsb (String.eqb cacheSecurityGroup) (securityGroups c))
    (allowedToDefaultPort s).

Definition is_alb (s : ServiceDecl) : bool :=
  match svc_kind s with AlbFargateService => true | Ec2ServiceKind => false end.

Definition xray_sidecar : ContainerDefinition :=
  mkContainer "xray-daemon" (fromRegistry "amazon/aws-xray-daemon") []
    [mkPortMapping 2000%N UDP].


Definition defaultService : ServiceDecl :=
  mkService "" Ec2ServiceKind "" 0 None [] [] None [].

(** The services of the stack do not depend on the stack id. *)
Definition stack_services : list ServiceDecl :=
  Eval vm_compute in st_services (application_stack "").

Definition stack_registrations : list NsRegistration :=
  Eval vm_compute in st_registrations (application_stack "").

(** Structural equality of values. *)
Definition frag_eqb (a b : Frag) : bool :=
  match a, b with
  | Lit x, Lit y => String.eqb x y
  | Tok i x, Tok j y => String.eqb i j && String.eqb x y
  | _, _ => false
  end.

Fixpoint value_eqb (v w : Value) : bool :=
  match v, w with
  | [], [] => true
  | f :: v', g :: w' => frag_eqb f g && value_eqb v' w'
  | _, _ => false
  end.

(** The DNS name ['<name>.' + cloudMapNamespace.namespaceName] of a
    namespace registration. *)
Definition registration_endpoint (r : NsRegistration) : Value :=
  endpoint_of (reg_name r ++ ".").

(** The logical ids a service's environment refers to: resources whose
    attribute tokens it contains, and the services whose namespace name it
    contains. *)
Definition value_references (regs : list NsRegistration) (v : Value)
    : list string :=
  List.app
    (flat_map (fun f => match f with Tok i _ => [i] | Lit _ => [] end) v)
    (map reg_loadBalancerOf
       (filter (fun r => value_eqb v (registration_endpoint r)) regs)).

Definition service_references (regs : list NsRegistration) (s : ServiceDecl)
    : list string :=
  flat_map (fun kv => value_references regs (snd kv)) (service_environment s).

(** Every reference of each service is to an id in [seen] or to a service
    declared before it. *)
Fixpoint refers_backwards (regs : list NsRegistration) (seen : list string)
    (l : list ServiceDecl) : bool :=
  match l with
  | [] => true
  | s :: rest =>
      forallb (fun x => existsb (String.eqb x) seen) (service_references regs s)
      && refers_backwards regs (List.app seen [svc_id s]) rest
  end.

(** Every environment value of [s] either carries an attribute token or
    is the DNS name of a registration whose load balancer belongs to a
    load-balanced service of [svcs]. *)
Definition env_resolved (regs : list NsRegistration) (svcs : list ServiceDecl)
    (s : ServiceDecl) : bool :=
  forallb (fun kv =>
      existsb (fun f => match f with Tok _ _ => true | Lit _ => false end) (snd kv)
      || existsb (fun r => value_eqb (snd kv) (registration_endpoint r)
                   && existsb (fun s' => String.eqb (svc_id s') (reg_loadBalancerOf r)
                                         && is_alb s') svcs) regs)
    (service_environment s).

End ApplicationStack.

(* ================================================================== *)
(** * Part II: the orchestration engine of the spec *)
(* ================================================================== *)

Module Engine.

Local Open Scope string_scope.

(** Modelled from the spec: the data model of section 3 (ResourceNode,
    Topology, EndpointDescriptor, ProvisioningOperation) and the error kinds
    of section 7; the repository has no such component. *)
Inductive Kind : Type :=
| Network | ClusterKind | Cache | ServiceKind | NamespaceKind | AutoscalerKind.

Record ResourceNode : Type := mkNode {
  node_name : string;
  node_kind : Kind;
  node_config : list (string * string)
}.

(** An edge [(from, to)]: [from] is a dependency of [to]. *)
Record Topology : Type := mkTopology {
  nodes : list ResourceNode;
  edges : list (string * string)
}.

Inductive Error : Type :=
| DuplicateName | UnknownNode | CycleDetected | InvalidConfig
| UnsupportedProtocol | BackendFailure.

Inductive result (A : Type) : Type :=
| Ok (a : A)
| Err (e : Error).
Arguments Ok {A} a.
Arguments Err {A} e.

Record NodeRef : Type := mkNodeRef { ref_name : string }.

Definition emptyTopology : Topology := mkTopology [] [].

Definition names (t : Topology) : list string := map node_name (nodes t).

Definition mem (x : string) (l : list string) : bool :=
  existsb (String.eqb x) l.

(** Modelled from the spec: [addNode(name, kind, config) -> NodeRef], fails
    with [DuplicateName] if the name exists (section 4.1).  The topology
    after the call is returned with the result. *)
Definition addNode (t : Topology) (name : string) (k : Kind)
    (config : list (string * string)) : result NodeRef * Topology :=
  if mem name (names t) then (Err DuplicateName, t)
  else (Ok (mkNodeRef name),
        mkTopology (List.app (nodes t) [mkNode name k config]) (edges t)).

(** One round of the incremental reachability search: every edge leaving
    the visited set adds its target. *)
Definition grow_step (acc : list string) (e : string * string) : list string :=
  if mem (fst e) acc && negb (mem (snd e) acc)
  then List.app acc [snd e] else acc.

Definition grow (es : list (string * string)) (S : list string) : list string :=
  fold_left grow_step es S.

Fixpoint closure (fuel : nat) (es : list (string * string)) (S : list string)
    : list string :=
  match fuel with
  | 0 => S
  | Datatypes.S f =>
      let S' := grow es S in
      if Nat.eqb (length S') (length S) then S else closure f es S'
  end.

Definition reachable_from (es : list (string * string)) (x : string)
    : list string :=
  closure (Datatypes.S (length es)) es [x].

(** Modelled from the spec: [addDependency(from, to)] fails with
    [UnknownNode] if either endpoint is absent and with [CycleDetected] if
    the edge would create a cycle, checked by reachability from [to] to
    [from] (section 4.1). *)
Definition addDependency (t : Topology) (from to : string)
    : result unit * Topology :=
  if negb (mem from (names t) && mem to (names t)) then (Err UnknownNode, t)
  else if mem from (reachable_from (edges t) to) then (Err CycleDetected, t)
  else (Ok tt, mkTopology (nodes t) (List.app (edges t) [(from, to)])).

(** Paths along dependency edges. *)
Inductive reaches (es : list (string * string)) : string -> string -> Prop :=
| reaches_refl x : reaches es x x
| reaches_step x y z : In (x, y) es -> reaches es y z -> reaches es x z.

Definition has_cycle (es : list (string * string)) : Prop :=
  exists x y, In (x, y) es /\ reaches es y x.

(** Topology invariants of section 3: unique keys, every dependency
    reference resolves to an existing node. *)
Definition wf_topology (t : Topology) : Prop :=
  NoDup (names t) /\
  (forall a b, In (a, b) (edges t) -> In a (names t) /\ In b (names t)).


(** ** Plan Emitter *)

(** Number of incoming edges of [n] whose source is not yet emitted. *)
Definition unresolved_indeg (es : list (string * string)) (done_ : list string)
    (n : string) : nat :=
  length (filter (fun e => String.eqb (snd e) n && negb (mem (fst e) done_)) es).

Definition ready (es : list (string * string)) (done_ : list string)
    (n : string) : bool :=
  Nat.eqb (unresolved_indeg es done_ n) 0.

(** The least logical name of a list. *)
Definition least (l : list string) : option string :=
  find (fun m => forallb (fun x => String.leb m x) l) l.

Definition remove_name (n : string) (l : list string) : list string :=
  filter (fun x => negb (String.eqb x n)) l.

(** Modelled from the spec: Kahn's algorithm of section 4.4; repeatedly
    select, among the nodes with zero unresolved in-degree, the one with the
    least logical name. *)
Fixpoint kahn (fuel : nat) (es : list (string * string))
    (pending done_ : list string) : list string :=
  match fuel with
  | 0 => done_
  | Datatypes.S f =>
      match least (filter (ready es done_) pending) with
      | None => done_
      | Some n => kahn f es (remove_name n pending) (List.app done_ [n])
      end
  end.

Inductive OpKind : Type := Create | UpdateDependency.

Record ProvisioningOperation : Type := mkOp {
  op_name : string;
  op_kind : OpKind;
  op_index : nat
}.

Fixpoint emit_from (i : nat) (order : list string) : list ProvisioningOperation :=
  match order with
  | [] => []
  | x :: rest => mkOp x Create i :: emit_from (Datatypes.S i) rest
  end.

Fixpoint index_of (x : string) (l : list string) : nat :=
  match l with
  | [] => 0
  | y :: rest => if String.eqb y x then 0 else Datatypes.S (index_of x rest)
  end.

(** The final validation pass: every edge has its source earlier. *)
Definition edges_ordered (es : list (string * string)) (order : list string)
    : bool :=
  forallb (fun e => mem (fst e) order && mem (snd e) order
                    && Nat.ltb (index_of (fst e) order) (index_of (snd e) order))
    es.

(** Modelled from the spec: the Plan Emitter (section 4.4).  It fails with
    [CycleDetected] if some node was never emitted, and re-checks the order
    of every edge before returning. *)
Definition plan (t : Topology) : result (list ProvisioningOperation) :=
  let ns := names t in
  let order := kahn (length ns) (edges t) ns [] in
  if Nat.eqb (length order) (length ns) then
    if edges_ordered (edges t) order then Ok (emit_from 0 order)
    else Err CycleDetected
  else Err CycleDetected.

(** Modelled from the spec: the boundary with the Provisioning Backend
    (sections 6 and 7).  The backend is a function from operations to
    success; the calls made are recorded, and application stops at the
    first failure. *)
Fixpoint apply_ops (backend : ProvisioningOperation -> bool)
    (ops : list ProvisioningOperation)
    : result unit * list ProvisioningOperation :=
  match ops with
  | [] => (Ok tt, [])
  | o :: rest =>
      if backend o then
        let (r, calls) := apply_ops backend rest in (r, o :: calls)
      else (Err BackendFailure, [o])
  end.

Definition deploy (backend : ProvisioningOperation -> bool) (t : Topology)
    : result unit * list ProvisioningOperation :=
  match plan t with
  | Err e => (Err e, [])
  | Ok ops => apply_ops backend ops
  end.

(** ** Endpoint Resolver *)

Inductive Protocol : Type := PCache | PHttp | PDiscoveryDns.

Definition protocol_eqb (p q : Protocol) : bool :=
  match p, q with
  | PCache, PCache | PHttp, PHttp | PDiscoveryDns, PDiscoveryDns => true
  | _, _ => false
  end.

Record EndpointDescriptor : Type := mkEndpoint {
  ep_producer : string;
  ep_protocol : Protocol;
  ep_address : string
}.

(** Modelled from the spec: which producer kinds offer which protocol
    (section 4.3: a cache offers a cache endpoint; a service offers http
    and discovery-dns; a network offers none). *)
Definition supports (k : Kind) (p : Protocol) : bool :=
  match k, p with
  | Cache, PCache => true
  | ServiceKind, PHttp => true
  | ServiceKind, PDiscoveryDns => true
  | _, _ => false
  end.

Definition address_template (name : string) (p : Protocol) : string :=
  match p with
  | PCache => "redis://" ++ name ++ ":6379/0"
  | PHttp => "http://" ++ name
  | PDiscoveryDns => name ++ ".anycompany.internal"
  end.

Definition lookup_node (t : Topology) (n : string) : option ResourceNode :=
  find (fun x => String.eqb (node_name x) n) (nodes t).

Definition resolve_uncached (t : Topology) (n : string) (p : Protocol)
    : result EndpointDescriptor :=
  match lookup_node t n with
  | None => Err UnknownNode
  | Some nd =>
      if supports (node_kind nd) p then Ok (mkEndpoint n p (address_template n p))
      else Err UnsupportedProtocol
  end.

Definition ResolverCache := list ((string * Protocol) * EndpointDescriptor).

Fixpoint cache_lookup (c : ResolverCache) (n : string) (p : Protocol)
    : option EndpointDescriptor :=
  match c with
  | [] => None
  | ((m, q), d) :: rest =>
      if String.eqb m n && protocol_eqb q p then Some d else cache_lookup rest n p
  end.

(** Modelled from the spec: [resolve(producerName, protocol)] with its cache
    per (producerName, protocol) pair (section 4.3). *)
Definition resolve (c : ResolverCache) (t : Topology) (n : string)
    (p : Protocol) : result EndpointDescriptor * ResolverCache :=
  match cache_lookup c n p with
  | Some d => (Ok d, c)
  | None =>
      match resolve_uncached t n p with
      | Ok d => (Ok d, ((n, p), d) :: c)
      | Err e => (Err e, c)
      end
  end.

(** Every cached descriptor is the one the topology determines. *)
Definition cache_ok (t : Topology) (c : ResolverCache) : Prop :=
  forall n p d, cache_lookup c n p = Some d -> resolve_uncached t n p = Ok d.

(** ** Autoscaler builder *)

Inductive StepBound : Type := LowerBound (l : Z) | UpperBound (u : Z).

Record Step : Type := mkStep { bound : StepBound; delta : Z }.

Record AutoscalerConfig : Type := mkAutoscaler {
  scaled_service : string;
  step_table : list Step
}.

(** The metric values an entry covers in the ordered (monotonic) table, as
    an inclusive range whose missing ends are unbounded.  A [{lower: l}]
    entry covers [l <= x], up to (excluding) the lower bound of the next
    entry when that entry is a higher lower bound; an [{upper: u}] entry
    covers [x <= u], down to (excluding) the upper bound of the previous
    entry when that entry is a lower upper bound.  So [{upper:10}] and
    [{lower:5}] share [5 <= x <= 10] (section 8), while [{lower:50}],
    [{lower:70}] cover [50 <= x < 70] and [70 <= x]. *)
Definition Range : Type := (option Z * option Z)%type.

Definition step_range (prev next : option Step) (s : Step) : Range :=
  match bound s with
  | LowerBound l =>
      (Some l,
       match option_map bound next with
       | Some (LowerBound l') => if Z.ltb l l' then Some (l' - 1)%Z else None
       | _ => None
       end)
  | UpperBound u =>
      (match option_map bound prev with
       | Some (UpperBound u') => if Z.ltb u' u then Some (u' + 1)%Z else None
       | _ => None
       end,
       Some u)
  end.

Fixpoint ranges (prev : option Step) (steps : list Step) : list Range :=
  match steps with
  | [] => []
  | s :: rest => step_range prev (hd_error rest) s :: ranges (Some s) rest
  end.

Definition step_ranges (steps : list Step) : list Range := ranges None steps.

Definition in_range (r : Range) (x : Z) : Prop :=
  match fst r with Some a => (a <= x)%Z | None => True end /\
  match snd r with Some b => (x <= b)%Z | None => True end.

Definition lo_max (a b : option Z) : option Z :=
  match a, b with
  | None, _ => b
  | _, None => a
  | Some x, Some y => Some (Z.max x y)
  end.

Definition hi_min (a b : option Z) : option Z :=
  match a, b with
  | None, _ => b
  | _, None => a
  | Some x, Some y => Some (Z.min x y)
  end.

Definition overlapb (r1 r2 : Range) : bool :=
  match lo_max (fst r1) (fst r2), hi_min (snd r1) (snd r2) with
  | Some a, Some b => Z.leb a b
  | _, _ => true
  end.

Fixpoint no_overlap (rs : list Range) : bool :=
  match rs with
  | [] => true
  | r :: rest => forallb (fun r' => negb (overlapb r r')) rest && no_overlap rest
  end.

(** Modelled from the spec: the overlap check of the autoscaler builder's
    [validate] (section 4.2). *)
Definition validate_autoscaler (cfg : AutoscalerConfig) : result unit :=
  if no_overlap (step_ranges (step_table cfg)) then Ok tt else Err InvalidConfig.

(** Reading of an entry of the stack's [scalingSteps] as a step of the
    spec's table: [{lower: l}] as a lower bound, [{upper: u}] as an upper
    bound. *)
Definition step_of_interval (iv : ApplicationStack.ScalingInterval) : Step :=
  match ApplicationStack.lower iv, ApplicationStack.upper iv with
  | Some l, _ => mkStep (LowerBound l) (ApplicationStack.change iv)
  | None, Some u => mkStep (UpperBound u) (ApplicationStack.change iv)
  | None, None => mkStep (LowerBound 0) (ApplicationStack.change iv)
  end.

(** ** Namespace builder *)

Definition lower_ascii (c : ascii) : ascii :=
  let n := nat_of_ascii c in
  if Nat.leb 65 n && Nat.leb n 90 then ascii_of_nat (n + 32) else c.

Fixpoint lowercase (s : string) : string :=
  match s with
  | EmptyString => EmptyString
  | String c rest => String (lower_ascii c) (lowercase rest)
  end.

Record Namespace : Type := mkNamespace {
  ns_name : string;
  ns_services : list string
}.

(** Modelled from the spec: a namespace builder registers one DNS-style
    name per service; names are unique within the namespace,
    case-insensitive (section 4.2). *)
Definition register (ns : Namespace) (name : string) : result unit * Namespace :=
  if existsb (fun x => String.eqb (lowercase x) (lowercase name)) (ns_services ns)
  then (Err DuplicateName, ns)
  else (Ok tt, mkNamespace (ns_name ns) (List.app (ns_services ns) [name])).

Fixpoint register_all (ns : Namespace) (l : list string)
    : list (result unit) * Namespace :=
  match l with
  | [] => ([], ns)
  | n :: rest =>
      let (r, ns1) := register ns n in
      let (rs, ns2) := register_all ns1 rest in (r :: rs, ns2)
  end.

Definition ci_unique (ns : Namespace) : Prop :=
  NoDup (map lowercase (ns_services ns)).


(** ** Vocabulary of the proofs *)

(** Every emitted node has all its dependencies emitted before it. *)
Definition ordered (es : list (string * string)) (order : list string) : Prop :=
  forall l1 n l2, order = (l1 ++ n :: l2)%list -> forall p, In (p, n) es -> In p l1.

(** Every emitted node has the least name among the nodes that were ready
    when it was selected. *)
Definition tiebreak (es : list (string * string)) (ns order : list string)
    : Prop :=
  forall l1 n l2, order = (l1 ++ n :: l2)%list ->
  forall m, In m ns -> ~ In m l1 -> (forall p, In (p, m) es -> In p l1) ->
  String.leb n m = true.

(** A walk along edges. *)
Fixpoint fchain (es : list (string * string)) (w : list string) : Prop :=
  match w with
  | x :: ((y :: _) as rest) => In (x, y) es /\ fchain es rest
  | _ => True
  end.

(** State invariant of [kahn]: the pending and emitted nodes partition
    the topology's names. *)
Definition kahn_inv (es : list (string * string)) (ns pending done_ : list string)
    : Prop :=
  NoDup pending /\ NoDup done_ /\ (forall x, In x pending -> ~ In x done_) /\
  (forall x, In x ns <-> In x pending \/ In x done_) /\
  ordered es done_ /\ tiebreak es ns done_.

(** Two entries of a step table, in this order, whose ranges share a metric
    value. *)
Definition overlapping_pair (steps : list Step) : Prop :=
  exists l1 r l2 r' l3, step_ranges steps = (l1 ++ r :: l2 ++ r' :: l3)%list /\
    exists x, in_range r x /\ in_range r' x.

(** ** Sample topologies *)

(** Section 8: A (network), B (cache, depends on A), C (service, depends on
    A and B), declared out of order. *)
Definition topology_ABC : Topology :=
  mkTopology [mkNode "C" ServiceKind []; mkNode "A" Network [];
              mkNode "B" Cache []]
             [("A", "B"); ("A", "C"); ("B", "C")].

(** Three nodes and the single dependency [c -> a]. *)
Definition topology_cab : Topology :=
  mkTopology [mkNode "a" Network []; mkNode "b" Network [];
              mkNode "c" Network []]
             [("c", "a")].

End Engine.

(* ================================================================== *)
(** * Properties of the application stack *)
(* ================================================================== *)

Module StackFacts.

Import ApplicationStack.
Local Open Scope string_scope.

(** The services and registrations of the stack do not depend on the stack id. *)
Lemma application_stack_services (id : string) :
  st_services (application_stack id) = stack_services.
Proof. vm_compute. reflexivity. Qed.

Lemma application_stack_registrations (id : string) :
  st_registrations (application_stack id) = stack_registrations.
Proof. vm_compute. reflexivity. Qed.

(** Cases over the seven declared services. *)
Lemma in_stack_services (s : ServiceDecl) :
  In s stack_services ->
  s = nth 0 stack_services defaultService \/ s = nth 1 stack_services defaultService \/
  s = nth 2 stack_services defaultService \/ s = nth 3 stack_services defaultService \/
  s = nth 4 stack_services defaultService \/ s = nth 5 stack_services defaultService \/
  s = nth 6 stack_services defaultService.
Proof.
  unfold stack_services; simpl.
  intros H; repeat (destruct H as [H|H]; [subst; tauto|]); destruct H.
Qed.

Example redis_endpoint_shape :
  redis_endpoint =
  [Lit "redis://"; Tok "RedisCache" "RedisEndpoint.Address"; Lit ":";
   Tok "RedisCache" "RedisEndpoint.Port"; Lit "/0"].
Proof. reflexivity. Qed.

(** C4: every service of the stack that is connected to the cache or whose
    configuration references the cache carries the cache endpoint in its
    environment under the single key [REDIS_ENDPOINT], with the value
    ["redis://" + address + ":" + port + "/0"]; no other key holds a value
    that references the cache. *)
Theorem cache_endpoint_injected (id : string) (s : ServiceDecl) :
  In s (st_services (application_stack id)) ->
  connected_to_cache s = true \/ references_cache s = true ->
  In ("REDIS_ENDPOINT", redis_endpoint) (service_environment s) /\
  (forall k v, In (k, v) (service_environment s) ->
     references "RedisCache" v = true ->
     k = "REDIS_ENDPOINT" /\ v = redis_endpoint).
Proof.
  rewrite application_stack_services.
  intros Hin Hdep.
  apply in_stack_services in Hin.
  repeat (destruct Hin as [Hin|Hin]); subst s; cbn in Hdep;
    destruct Hdep as [Hdep|Hdep]; try discriminate Hdep;
    (split; [cbn; tauto|]);
    intros k v Hkv Hr; cbn in Hkv;
    repeat (destruct Hkv as [Hkv|Hkv];
            [injection Hkv as <- <-; cbn in Hr; try discriminate Hr;
             split; reflexivity|]);
    destruct Hkv.
Qed.

Lemma cache_endpoint_injected_witness :
  In ("REDIS_ENDPOINT", redis_endpoint)
     (service_environment (nth 2 stack_services defaultService)).
Proof.
  apply (cache_endpoint_injected "ECSInsightsApplication"
           (nth 2 stack_services defaultService)).
  - rewrite application_stack_services; vm_compute; tauto.
  - left; reflexivity.
Defined.

(** C9: every load-balanced Fargate service of the stack (there are six)
    receives the same X-Ray sidecar (container "xray-daemon" from image
    "amazon/aws-xray-daemon", UDP port mapping on 2000) and its task role
    gets the "AWSXRayDaemonWriteAccess" managed policy. *)
Theorem xray_sidecar_uniform (id : string) :
  length (filter is_alb (st_services (application_stack id))) = 6 /\
  Forall (fun s => In xray_sidecar (containers s) /\
                   In "AWSXRayDaemonWriteAccess" (taskRolePolicies s))
    (filter is_alb (st_services (application_stack id))).
Proof.
  rewrite application_stack_services.
  split; [reflexivity|].
  vm_compute; repeat (apply Forall_cons; [split|]); try apply Forall_nil;
    repeat (first [left; reflexivity | right]).
Qed.

(** C10: exactly the cart and frontend services are granted access to the
    cache's default port (TCP 6379) through the cache security group, and
    they are exactly the services whose environment references the cache. *)
Theorem cache_access_exact (id : string) :
  map svc_id (filter connected_to_cache (st_services (application_stack id)))
    = ["CartService"; "FrontendService"] /\
  map svc_id (filter references_cache (st_services (application_stack id)))
    = ["CartService"; "FrontendService"] /\
  (forall s, In s (st_services (application_stack id)) ->
     forall c, In c (allowedToDefaultPort s) -> c = cacheConnection) /\
  securityGroups cacheConnection = [cacheSecurityGroup] /\
  defaultPort cacheConnection = Some (mkPort TCP 6379%N).
Proof.
  rewrite application_stack_services.
  split; [reflexivity|]. split; [reflexivity|].
  split; [|split; reflexivity].
  intros s Hin c Hc.
  apply in_stack_services in Hin.
  repeat (destruct Hin as [Hin|Hin]); subst s; cbn in Hc;
    repeat (destruct Hc as [Hc|Hc]; [now subst c|]); destruct Hc.
Qed.

(** ** Further properties of the stack *)

Lemma string_length_append a b :
  String.length (a ++ b) = String.length a + String.length b.
Proof. induction a as [|c a IH]; simpl; auto. Qed.

Lemma append_inj_suffix a b s : a ++ s = b ++ s -> a = b.
Proof.
  revert b; induction a as [|c a IH]; intros b H; destruct b as [|c' b];
    simpl in H.
  - reflexivity.
  - exfalso. apply (f_equal String.length) in H. simpl in H.
    rewrite string_length_append in H. lia.
  - exfalso. apply (f_equal String.length) in H. simpl in H.
    rewrite string_length_append in H. lia.
  - injection H as -> H. f_equal. now apply IH.
Qed.

Lemma value_eqb_eq v w : value_eqb v w = true -> v = w.
Proof.
  revert w; induction v as [|f v IH]; intros [|g w]; simpl; try discriminate; auto.
  intros H. apply andb_true_iff in H. destruct H as [Hf Hv].
  rewrite (IH w Hv). f_equal.
  destruct f, g; simpl in Hf; try discriminate.
  - apply String.eqb_eq in Hf. now subst.
  - apply andb_true_iff in Hf. destruct Hf as [H1 H2].
    apply String.eqb_eq in H1, H2. now subst.
Qed.

Lemma refers_backwards_spec regs seen l l1 s l2 x :
  refers_backwards regs seen l = true -> l = List.app l1 (s :: l2) ->
  In x (service_references regs s) -> In x seen \/ In x (map svc_id l1).
Proof.
  revert seen l; induction l1 as [|s1 l1 IH]; intros seen l Hchk Hl Hx;
    subst l; simpl in Hchk; apply andb_true_iff in Hchk; destruct Hchk as [Hs Hrest].
  - left. rewrite forallb_forall in Hs. specialize (Hs x Hx).
    apply existsb_exists in Hs. destruct Hs as [y [Hy Heq]].
    apply String.eqb_eq in Heq. now subst.
  - destruct (IH _ _ Hrest eq_refl Hx) as [H|H].
    + apply in_app_or in H. destruct H as [H|[<-|[]]].
      * now left.
      * right. now left.
    + right. now right.
Qed.

(** Two application stacks with different ids get different cache subnet
    group names. *)
Theorem subnet_group_names_distinct (id1 id2 : string) :
  id1 <> id2 ->
  forall c1 c2, st_cache (application_stack id1) = Some c1 ->
  st_cache (application_stack id2) = Some c2 ->
  cacheSubnetGroupName c1 <> cacheSubnetGroupName c2.
Proof.
  intros Hne c1 c2 H1 H2.
  vm_compute in H1, H2. injection H1 as <-. injection H2 as <-. simpl.
  intros H. apply Hne. exact (append_inj_suffix _ _ _ H).
Qed.

Lemma subnet_group_names_distinct_witness :
  exists c1 c2,
  st_cache (application_stack "ECSInsightsApplication") = Some c1 /\
  st_cache (application_stack "ECSInsightsStaging") = Some c2 /\
  cacheSubnetGroupName c1 <> cacheSubnetGroupName c2.
Proof.
  eexists. eexists.
  split; [vm_compute; reflexivity|]. split; [vm_compute; reflexivity|].
  refine (subnet_group_names_distinct "ECSInsightsApplication"
            "ECSInsightsStaging" _ _ _ _ _);
    [discriminate | vm_compute; reflexivity | vm_compute; reflexivity].
Defined.

(** No dangling service-discovery name: every environment value of every
    service either carries an attribute token or is the DNS name
    ['<name>.anycompany.internal'] of a namespace registration whose load
    balancer belongs to a load-balanced service of the stack. *)
Theorem dns_endpoints_registered (id : string) (s : ServiceDecl) :
  In s (st_services (application_stack id)) ->
  forall k v, In (k, v) (service_environment s) ->
  (exists i a, In (Tok i a) v) \/
  (exists r, In r (st_registrations (application_stack id)) /\
     v = registration_endpoint r /\
     exists s', In s' (st_services (application_stack id)) /\
       svc_id s' = reg_loadBalancerOf r /\ is_alb s' = true).
Proof.
  rewrite application_stack_services, application_stack_registrations.
  intros Hs k v Hkv.
  assert (Hchk : forallb (env_resolved stack_registrations stack_services)
                   stack_services = true) by (vm_compute; reflexivity).
  rewrite forallb_forall in Hchk. specialize (Hchk s Hs).
  unfold env_resolved in Hchk. rewrite forallb_forall in Hchk.
  specialize (Hchk (k, v) Hkv). cbn [snd] in Hchk.
  apply orb_true_iff in Hchk. destruct Hchk as [H|H].
  - left. apply existsb_exists in H. destruct H as [[i|i a] [Hf Ht]];
      [discriminate|]. now exists i, a.
  - right. apply existsb_exists in H. destruct H as [r [Hr H]].
    apply andb_true_iff in H. destruct H as [Hv H].
    exists r. split; [assumption|]. split; [now apply value_eqb_eq|].
    apply existsb_exists in H. destruct H as [s' [Hs' H]].
    apply andb_true_iff in H. destruct H as [Hid Halb].
    exists s'. split; [assumption|]. split; [|assumption].
    now apply String.eqb_eq.
Qed.

Lemma dns_endpoints_registered_witness :
  (exists i a, In (Tok i a) (endpoint_of "order.")) \/
  (exists r, In r (st_registrations (application_stack "ECSInsightsApplication")) /\
     endpoint_of "order." = registration_endpoint r /\
     exists s', In s' (st_services (application_stack "ECSInsightsApplication")) /\
       svc_id s' = reg_loadBalancerOf r /\ is_alb s' = true).
Proof.
  refine (dns_endpoints_registered "ECSInsightsApplication"
           (nth 5 stack_services defaultService) _ "ORDER_ENDPOINT"
           (endpoint_of "order.") _).
  - rewrite application_stack_services. vm_compute.
    repeat (first [left; reflexivity | right]).
  - vm_compute. repeat (first [left; reflexivity | right]).
Defined.

(** Declaration order follows the references: every resource a service's
    environment refers to (through an attribute token or a namespace DNS
    name) is the cache cluster or a service declared before it. *)
Theorem services_refer_backwards (id : string) (l1 l2 : list ServiceDecl)
    (s : ServiceDecl) (x : string) :
  st_services (application_stack id) = List.app l1 (s :: l2) ->
  In x (service_references (st_registrations (application_stack id)) s) ->
  x = "RedisCache" \/ In x (map svc_id l1).
Proof.
  rewrite application_stack_services, application_stack_registrations.
  intros Hl Hx.
  assert (Hchk : refers_backwards stack_registrations ["RedisCache"]
                   stack_services = true) by (vm_compute; reflexivity).
  destruct (refers_backwards_spec _ _ _ _ _ _ _ Hchk Hl Hx) as [[H|[]]|H].
  - now left.
  - now right.
Qed.

Lemma services_refer_backwards_witness :
  "CartService" = "RedisCache" \/
  In "CartService" (map svc_id (firstn 5 stack_services)).
Proof.
  refine (services_refer_backwards "ECSInsightsApplication"
            (firstn 5 stack_services) (skipn 6 stack_services)
            (nth 5 stack_services defaultService) "CartService" _ _).
  - rewrite application_stack_services. vm_compute. reflexivity.
  - rewrite application_stack_registrations. vm_compute.
    repeat (first [left; reflexivity | right]).
Defined.


(** The task definition of every load-balanced service holds exactly the
    main container "web" followed by the X-Ray sidecar; the load generator's
    holds the single container "generator". *)
Theorem task_containers (id : string) :
  Forall (fun s => map c_name (containers s) =
                   if is_alb s then ["web"; "xray-daemon"] else ["generator"])
    (st_services (application_stack id)).
Proof.
  rewrite application_stack_services. vm_compute.
  repeat constructor.
Qed.

(** Every load-balanced service except the frontend is registered in the
    namespace, in declaration order, under a name equal to its registration
    id; the frontend is not registered. *)
Theorem registrations_backends (id : string) :
  map reg_loadBalancerOf (st_registrations (application_stack id)) =
  map svc_id (filter (fun s => is_alb s && negb (String.eqb (svc_id s) "FrontendService"))
                (st_services (application_stack id))) /\
  Forall (fun r => reg_id r = reg_name r) (st_registrations (application_stack id)).
Proof.
  rewrite application_stack_services, application_stack_registrations.
  vm_compute. split; [reflexivity|]. repeat constructor.
Qed.

(** The load generator is the only service without the X-Ray sidecar; it is
    not load-balanced and its task role gets no managed policy. *)
Theorem no_sidecar_only_loadgenerator (id : string) (s : ServiceDecl) :
  In s (st_services (application_stack id)) ->
  ~ In xray_sidecar (containers s) ->
  svc_id s = "LoadGenerator" /\ is_alb s = false /\ taskRolePolicies s = [].
Proof.
  rewrite application_stack_services. intros Hs Hx.
  apply in_stack_services in Hs.
  repeat (destruct Hs as [Hs|Hs];
          [subst s; vm_compute in Hx |- *;
           first [exfalso; apply Hx; repeat (first [left; reflexivity | right])
                 | repeat split]|]);
    subst s; vm_compute in Hx |- *; repeat split.
Qed.

Lemma no_sidecar_only_loadgenerator_witness :
  svc_id (nth 6 stack_services defaultService) = "LoadGenerator" /\
  is_alb (nth 6 stack_services defaultService) = false /\
  taskRolePolicies (nth 6 stack_services defaultService) = [].
Proof.
  refine (no_sidecar_only_loadgenerator "ECSInsightsApplication"
            (nth 6 stack_services defaultService) _ _).
  - rewrite application_stack_services. vm_compute.
    repeat (first [left; reflexivity | right]).
  - vm_compute. intros [H|[]]. discriminate.
Defined.

(** Every load-balanced service gets a target group health check, on
    "/healthz" or "/api/v1/healthz"; the load generator has none. *)
Theorem health_checks (id : string) :
  Forall (fun s => if is_alb s
                   then healthCheckPath s = Some "/healthz" \/
                        healthCheckPath s = Some "/api/v1/healthz"
                   else healthCheckPath s = None)
    (st_services (application_stack id)).
Proof.
  rewrite application_stack_services. vm_compute.
  repeat (apply Forall_cons; [first [left; reflexivity | right; reflexivity | reflexivity]|]).
  apply Forall_nil.
Qed.

End StackFacts.

(* ================================================================== *)
(** * Properties of the engine *)
(* ================================================================== *)

Module EngineFacts.

Import Engine.
Local Open Scope string_scope.
Local Open Scope list_scope.

(** ** Lists and membership *)

Lemma mem_In x l : mem x l = true <-> In x l.
Proof.
  unfold mem; rewrite existsb_exists; split.
  - intros [y [Hy Heq]]. apply String.eqb_eq in Heq. now subst.
  - intros H. exists x. split; [assumption | apply String.eqb_refl].
Qed.

Lemma mem_false x l : mem x l = false <-> ~ In x l.
Proof.
  split.
  - intros H Hin. apply mem_In in Hin. congruence.
  - intros H. destruct (mem x l) eqn:E; [|reflexivity].
    exfalso. apply H. now apply mem_In.
Qed.

Lemma NoDup_snoc (l : list string) x : NoDup l -> ~ In x l -> NoDup (l ++ [x]).
Proof.
  intros Hl Hx.
  apply (Permutation_NoDup (Permutation_cons_append l x)).
  now constructor.
Qed.

(** ** Paths *)

Lemma reaches_snoc es x y z : reaches es x y -> In (y, z) es -> reaches es x z.
Proof.
  induction 1 as [x|x y' y Hxy _ IH]; intros Hyz.
  - apply reaches_step with z; [assumption | apply reaches_refl].
  - apply reaches_step with y'; auto.
Qed.

(** ** The incremental reachability search *)

Lemma grow_step_incl acc e x : In x acc -> In x (grow_step acc e).
Proof.
  unfold grow_step; destruct (_ && _); [|auto].
  intros; apply in_or_app; now left.
Qed.

Lemma fold_grow_incl es acc x :
  In x acc -> In x (fold_left grow_step es acc).
Proof.
  revert acc; induction es as [|e es IH]; intros acc H; simpl; auto.
  apply IH, grow_step_incl, H.
Qed.

Lemma fold_grow_prefix es acc :
  exists extra, fold_left grow_step es acc = acc ++ extra.
Proof.
  revert acc; induction es as [|e es IH]; intros acc; simpl.
  - exists []. now rewrite app_nil_r.
  - destruct (IH (grow_step acc e)) as [ex Hex]. rewrite Hex.
    unfold grow_step. destruct (_ && _).
    + exists (snd e :: ex). now rewrite <- app_assoc.
    + now exists ex.
Qed.

Lemma fold_grow_adds es acc a b :
  In (a, b) es -> In a acc -> In b (fold_left grow_step es acc).
Proof.
  revert acc; induction es as [|e es IH]; intros acc Hin Ha; [destruct Hin|].
  simpl. destruct Hin as [->|Hin].
  - apply fold_grow_incl. unfold grow_step; simpl.
    assert (Hm : mem a acc = true) by now apply mem_In.
    rewrite Hm; simpl.
    destruct (mem b acc) eqn:Eb; simpl.
    + now apply mem_In.
    + apply in_or_app; right; now left.
  - apply IH; [assumption|]. now apply grow_step_incl.
Qed.

Lemma fold_grow_nodup es acc :
  NoDup acc -> NoDup (fold_left grow_step es acc).
Proof.
  revert acc; induction es as [|e es IH]; intros acc H; simpl; [assumption|].
  apply IH. unfold grow_step.
  destruct (mem (fst e) acc); simpl; [|assumption].
  destruct (mem (snd e) acc) eqn:E; simpl; [assumption|].
  apply NoDup_snoc; [assumption|]. now apply mem_false.
Qed.

Lemma fold_grow_within es acc U :
  incl acc U -> (forall e, In e es -> In (snd e) U) ->
  incl (fold_left grow_step es acc) U.
Proof.
  revert acc; induction es as [|e es IH]; intros acc Hacc HU; simpl; [assumption|].
  apply IH; [|intros; apply HU; now right].
  unfold grow_step. destruct (_ && _); [|assumption].
  intros x Hx. apply in_app_or in Hx. destruct Hx as [Hx|[<-|[]]]; auto.
  apply HU; now left.
Qed.

Lemma fold_grow_sound es0 r es acc :
  (forall e, In e es -> In e es0) ->
  (forall x, In x acc -> reaches es0 r x) ->
  forall x, In x (fold_left grow_step es acc) -> reaches es0 r x.
Proof.
  revert acc; induction es as [|e es IH]; intros acc Hes Hacc; simpl; [assumption|].
  apply IH; [intros; apply Hes; now right|].
  unfold grow_step. destruct (mem (fst e) acc) eqn:Ef; simpl; [|assumption].
  destruct (mem (snd e) acc); simpl; [assumption|].
  intros x Hx. apply in_app_or in Hx. destruct Hx as [Hx|[<-|[]]]; auto.
  apply reaches_snoc with (fst e).
  - apply Hacc. now apply mem_In.
  - apply Hes. left. now destruct e.
Qed.

Lemma closure_incl f es S x : In x S -> In x (closure f es S).
Proof.
  revert S; induction f as [|f IH]; intros S H; simpl; [assumption|].
  destruct (Nat.eqb _ _); [assumption|].
  apply IH. now apply fold_grow_incl.
Qed.

Lemma closure_sound es r f S :
  (forall x, In x S -> reaches es r x) ->
  forall x, In x (closure f es S) -> reaches es r x.
Proof.
  revert S; induction f as [|f IH]; intros S HS; simpl; [assumption|].
  destruct (Nat.eqb _ _); [assumption|].
  apply IH. apply fold_grow_sound; auto.
Qed.

Lemma closure_closed es U f S :
  NoDup S -> incl S U -> (forall e, In e es -> In (snd e) U) ->
  length U < length S + f ->
  forall a b, In (a, b) es -> In a (closure f es S) -> In b (closure f es S).
Proof.
  revert S; induction f as [|f IH]; intros S Hnd Hincl HU Hlen.
  - exfalso. pose proof (NoDup_incl_length Hnd Hincl). lia.
  - simpl. unfold grow.
    destruct (fold_grow_prefix es S) as [ex Hex]. rewrite Hex.
    destruct (Nat.eqb (length (S ++ ex)) (length S)) eqn:E.
    + apply Nat.eqb_eq in E. rewrite length_app in E.
      destruct ex; [|simpl in E; lia].
      rewrite app_nil_r in Hex.
      intros a b Hab Ha. rewrite <- Hex. now apply fold_grow_adds with a.
    + apply Nat.eqb_neq in E. rewrite length_app in E.
      rewrite <- Hex. apply IH.
      * now apply fold_grow_nodup.
      * now apply fold_grow_within.
      * assumption.
      * rewrite Hex, length_app. lia.
Qed.

Lemma reachable_from_spec es x y : In y (reachable_from es x) <-> reaches es x y.
Proof.
  unfold reachable_from. split.
  - apply closure_sound. intros z [<-|[]]. apply reaches_refl.
  - assert (Hcl : forall a b, In (a, b) es ->
              In a (closure (Datatypes.S (length es)) es [x]) ->
              In b (closure (Datatypes.S (length es)) es [x])).
    { apply closure_closed with (U := x :: map snd es).
      - repeat constructor; intros [].
      - intros z [<-|[]]; now left.
      - intros e He. right. now apply in_map.
      - simpl. rewrite length_map. lia. }
    assert (Hx : In x (closure (Datatypes.S (length es)) es [x]))
      by (apply closure_incl; now left).
    intros H.
    set (C := closure (Datatypes.S (length es)) es [x]) in *. clearbody C.
    revert Hx. induction H as [z|a b c Hab _ IH]; auto.
    intros Ha. apply IH. now apply Hcl with a.
Qed.


(** ** Order on logical names *)

Lemma string_compare_refl s : String.compare s s = Eq.
Proof.
  induction s as [|c s IH]; simpl; [reflexivity|].
  unfold Ascii.compare. now rewrite N.compare_refl.
Qed.

Lemma string_leb_refl s : String.leb s s = true.
Proof. unfold String.leb. now rewrite string_compare_refl. Qed.

Lemma string_leb_cons x a y b :
  String.leb (String x a) (String y b) =
  match N.compare (N_of_ascii x) (N_of_ascii y) with
  | Eq => String.leb a b
  | Lt => true
  | Gt => false
  end.
Proof.
  unfold String.leb; simpl; unfold Ascii.compare.
  destruct (N.compare _ _); reflexivity.
Qed.

Lemma string_leb_trans a b c :
  String.leb a b = true -> String.leb b c = true -> String.leb a c = true.
Proof.
  revert b c; induction a as [|x a IH]; intros b c Hab Hbc.
  - destruct c; reflexivity.
  - destruct b as [|y b]; [discriminate|].
    destruct c as [|z c]; [discriminate|].
    rewrite string_leb_cons in *.
    destruct (N.compare_spec (N_of_ascii x) (N_of_ascii y)) as [E1|E1|E1];
      try discriminate;
    destruct (N.compare_spec (N_of_ascii y) (N_of_ascii z)) as [E2|E2|E2];
      try discriminate.
    + rewrite E1, E2, N.compare_refl. eauto.
    + rewrite E1. apply N.compare_lt_iff in E2. now rewrite E2.
    + assert (E : (N_of_ascii x < N_of_ascii z)%N) by (rewrite <- E2; exact E1).
      apply N.compare_lt_iff in E. now rewrite E.
    + assert (E : (N_of_ascii x < N_of_ascii z)%N) by lia.
      apply N.compare_lt_iff in E. now rewrite E.
Qed.

Lemma least_some l m :
  least l = Some m -> In m l /\ forall x, In x l -> String.leb m x = true.
Proof.
  unfold least. intros H. apply find_some in H. destruct H as [Hin Hall].
  split; [assumption|]. now apply forallb_forall.
Qed.

Lemma min_exists l :
  l <> [] -> exists m, In m l /\ forall x, In x l -> String.leb m x = true.
Proof.
  induction l as [|a l IH]; intros Hne; [congruence|].
  destruct l as [|b l].
  - exists a. split; [now left|]. intros x [<-|[]]. apply string_leb_refl.
  - destruct IH as [m [Hm Hmin]]; [discriminate|].
    destruct (String.leb a m) eqn:Eam.
    + exists a. split; [now left|].
      intros x [<-|Hx]; [apply string_leb_refl|].
      apply string_leb_trans with m; auto.
    + exists m. split; [now right|].
      intros x [<-|Hx]; [|auto].
      destruct (String.leb_total m a) as [H|H]; [assumption|congruence].
Qed.

Lemma least_exists l : l <> [] -> exists m, least l = Some m.
Proof.
  intros Hne. destruct (least l) as [m|] eqn:E; [now exists m|].
  destruct (min_exists l Hne) as [m [Hm Hmin]].
  unfold least in E. apply (find_none _ _ E) in Hm.
  assert (forallb (fun x => String.leb m x) l = true)
    by (apply forallb_forall; assumption).
  congruence.
Qed.

(** ** Readiness *)

Lemma ready_spec es d n :
  ready es d n = true <-> forall p, In (p, n) es -> In p d.
Proof.
  unfold ready, unresolved_indeg.
  induction es as [|[a b] es IH]; simpl.
  - split; [intros _ p []|reflexivity].
  - destruct (String.eqb b n) eqn:Ebn; simpl.
    + apply String.eqb_eq in Ebn; subst b.
      destruct (mem a d) eqn:Ea; simpl.
      * rewrite IH. split.
        -- intros H p [Hp|Hp]; [|auto]. injection Hp as <-. now apply mem_In.
        -- intros H p Hp. apply H. now right.
      * split; [discriminate|].
        intros H. exfalso. apply mem_false in Ea. apply Ea, H. now left.
    + rewrite IH. split.
      * intros H p [Hp|Hp]; [|auto]. injection Hp as -> ->.
        now rewrite String.eqb_refl in Ebn.
      * intros H p Hp. apply H. now right.
Qed.

Lemma ready_false es d n :
  ready es d n = false -> exists p, In (p, n) es /\ ~ In p d.
Proof.
  unfold ready, unresolved_indeg.
  induction es as [|[a b] es IH]; simpl; [discriminate|].
  destruct (String.eqb b n && negb (mem a d)) eqn:E; simpl.
  - intros _. apply andb_true_iff in E. destruct E as [Eb Ea].
    apply String.eqb_eq in Eb; subst b.
    apply negb_true_iff, mem_false in Ea.
    exists a. split; [now left|assumption].
  - intros H. destruct (IH H) as [p [Hp Hnd]]. exists p. split; [now right|assumption].
Qed.

(** ** Decompositions *)

Lemma app_snoc_split (d : list string) n l1 m l2 :
  d ++ [n] = l1 ++ m :: l2 ->
  (l2 = [] /\ l1 = d /\ m = n) \/
  (exists l2', l2 = l2' ++ [n] /\ d = l1 ++ m :: l2').
Proof.
  destruct l2 as [|x l2'] using rev_ind; intros H.
  - left. apply app_inj_tail in H. destruct H as [-> ->]. auto.
  - right. replace (l1 ++ m :: l2' ++ [x]) with ((l1 ++ m :: l2') ++ [x]) in H
      by (rewrite <- app_assoc; reflexivity).
    apply app_inj_tail in H. destruct H as [-> ->].
    exists l2'. auto.
Qed.

Lemma ordered_snoc es d n :
  ordered es d -> (forall p, In (p, n) es -> In p d) -> ordered es (d ++ [n]).
Proof.
  intros Hord Hn l1 m l2 Heq p Hp.
  apply app_snoc_split in Heq.
  destruct Heq as [[-> [-> ->]]|[l2' [-> Hd]]]; [auto|].
  eapply Hord; eauto.
Qed.

Lemma tiebreak_snoc es ns d n :
  tiebreak es ns d ->
  (forall m, In m ns -> ~ In m d -> (forall p, In (p, m) es -> In p d) ->
     String.leb n m = true) ->
  tiebreak es ns (d ++ [n]).
Proof.
  intros Htb Hn l1 m l2 Heq.
  apply app_snoc_split in Heq.
  destruct Heq as [[-> [-> ->]]|[l2' [-> Hd]]]; [auto|].
  eapply Htb; eauto.
Qed.

Lemma filter_length_le' (f : string -> bool) l : length (filter f l) <= length l.
Proof.
  induction l as [|x l IH]; simpl; [lia|]. destruct (f x); simpl; lia.
Qed.

Lemma remove_name_length n l :
  In n l -> length (remove_name n l) < length l.
Proof.
  unfold remove_name. induction l as [|x l IH]; simpl; [intros []|].
  intros [->|Hin].
  - rewrite String.eqb_refl; simpl. pose proof (filter_length_le' (fun x => negb (String.eqb x n)) l). lia.
  - destruct (negb (String.eqb x n)); simpl; specialize (IH Hin); lia.
Qed.

Lemma remove_name_In n l x : In x (remove_name n l) <-> In x l /\ x <> n.
Proof.
  unfold remove_name. rewrite filter_In. rewrite negb_true_iff, String.eqb_neq.
  reflexivity.
Qed.

(** ** Walks and cycles *)

Lemma fchain_tail es x w : fchain es (x :: w) -> fchain es w.
Proof. destruct w; simpl; tauto. Qed.

Lemma fchain_app_r es l1 l2 : fchain es (l1 ++ l2) -> fchain es l2.
Proof.
  induction l1 as [|x l1 IH]; simpl; [auto|].
  intros H. apply IH. now apply fchain_tail with x.
Qed.

Lemma fchain_app_l es l1 l2 : fchain es (l1 ++ l2) -> fchain es l1.
Proof.
  induction l1 as [|x [|y l1] IH]; simpl; [auto|auto|].
  intros [Hxy H]. split; [assumption|]. now apply IH.
Qed.

Lemma fchain_reaches es x l y : fchain es (x :: l ++ [y]) -> reaches es x y.
Proof.
  revert x; induction l as [|z l IH]; intros x H; simpl in H.
  - destruct H as [Hxy _]. apply reaches_step with y; [assumption|apply reaches_refl].
  - destruct H as [Hxz H]. apply reaches_step with z; [assumption|]. now apply IH.
Qed.

Lemma fchain_repeat_cycle es l1 a l2 l3 :
  fchain es (l1 ++ a :: l2 ++ a :: l3) -> has_cycle es.
Proof.
  intros H. apply fchain_app_r in H.
  replace (a :: l2 ++ a :: l3) with ((a :: l2 ++ [a]) ++ l3) in H
    by (simpl; rewrite <- app_assoc; reflexivity).
  apply fchain_app_l in H.
  destruct l2 as [|b l2]; simpl in H.
  - exists a, a. split; [tauto|apply reaches_refl].
  - destruct H as [Hab H]. exists a, b. split; [assumption|].
    now apply fchain_reaches with l2.
Qed.

(** A non-empty set of pending nodes none of which is ready lies on a
    cycle. *)
Lemma stuck_has_cycle es pending d :
  pending <> [] ->
  (forall x, In x pending -> ready es d x = false) ->
  (forall a b, In (a, b) es -> ~ In a d -> In a pending) ->
  has_cycle es.
Proof.
  intros Hne Hstuck Hsrc.
  assert (Hwalk : forall k, exists w,
             length w = Datatypes.S k /\ incl w pending /\ fchain es w /\ w <> []).
  { induction k as [|k IH].
    - destruct pending as [|x p]; [congruence|].
      exists [x]. repeat split; [intros y [<-|[]]; now left|discriminate].
    - destruct IH as [w [Hlen [Hinc [Hch Hne']]]].
      destruct w as [|x w]; [congruence|].
      destruct (ready_false es d x (Hstuck x (Hinc x (or_introl eq_refl))))
        as [p [Hpx Hpd]].
      exists (p :: x :: w). repeat split.
      + simpl in *; lia.
      + intros y [<-|Hy]; [now apply Hsrc with x|now apply Hinc].
      + exact Hpx.
      + exact Hch.
      + discriminate. }
  destruct (Hwalk (length pending)) as [w [Hlen [Hinc [Hch _]]]].
  assert (Hnd : ~ NoDup w).
  { intros Hnd. pose proof (NoDup_incl_length Hnd Hinc). lia. }
  assert (Hdec : forall x y : string, Decidable.decidable (x = y))
    by (intros x y; destruct (string_dec x y); [left|right]; assumption).
  destruct (not_NoDup Hdec Hnd) as [a [l1 [l2 [l3 ->]]]].
  now apply fchain_repeat_cycle with l1 a l2 l3.
Qed.

(** ** Kahn's algorithm *)

Section Kahn.

Variable es : list (string * string).
Variable ns : list string.

Lemma kahn_inv_init : NoDup ns -> kahn_inv es ns ns [].
Proof.
  intros Hnd. repeat split.
  - assumption.
  - constructor.
  - intros x _ [].
  - intros H; now left.
  - intros [H|[]]; assumption.
  - intros l1 n l2 H. exfalso. now apply app_cons_not_nil in H.
  - intros l1 n l2 H. exfalso. now apply app_cons_not_nil in H.
Qed.

Lemma kahn_inv_step pending d n :
  kahn_inv es ns pending d ->
  least (filter (ready es d) pending) = Some n ->
  kahn_inv es ns (remove_name n pending) (d ++ [n]) /\ In n pending.
Proof.
  intros [Hndp [Hndd [Hdisj [Hcov [Hord Htb]]]]] Hleast.
  apply least_some in Hleast. destruct Hleast as [Hn Hmin].
  apply filter_In in Hn. destruct Hn as [Hnp Hnr].
  split; [|assumption].
  repeat split.
  - now apply NoDup_filter.
  - apply NoDup_snoc; [assumption|]. now apply Hdisj.
  - intros x Hx Hxd. apply remove_name_In in Hx. destruct Hx as [Hx Hxn].
    apply in_app_or in Hxd. destruct Hxd as [Hxd|[<-|[]]]; [|congruence].
    now apply (Hdisj x).
  - intros Hx. apply Hcov in Hx. destruct Hx as [Hx|Hx].
    + destruct (String.eqb_spec x n) as [->|Hxn].
      * right. apply in_or_app. right; now left.
      * left. now apply remove_name_In.
    + right. apply in_or_app. now left.
  - intros [Hx|Hx]; apply Hcov.
    + apply remove_name_In in Hx. now left.
    + apply in_app_or in Hx. destruct Hx as [Hx|[<-|[]]]; [now right|now left].
  - apply ordered_snoc; [assumption|]. now apply ready_spec.
  - apply tiebreak_snoc; [assumption|].
    intros m Hm Hmd Hpreds. apply Hmin. apply filter_In. split.
    + apply Hcov in Hm. destruct Hm; [assumption|contradiction].
    + now apply ready_spec.
Qed.

Lemma kahn_result f pending d :
  kahn_inv es ns pending d ->
  NoDup (kahn f es pending d) /\
  (forall x, In x (kahn f es pending d) -> In x ns) /\
  ordered es (kahn f es pending d) /\
  tiebreak es ns (kahn f es pending d) /\
  incl d (kahn f es pending d).
Proof.
  revert pending d; induction f as [|f IH]; intros pending d Hinv.
  - destruct Hinv as [_ [Hndd [_ [Hcov [Hord Htb]]]]]. simpl.
    repeat split; auto.
    + intros x Hx. apply Hcov. now right.
    + intros x Hx; exact Hx.
  - simpl. destruct (least (filter (ready es d) pending)) as [n|] eqn:E.
    + destruct (kahn_inv_step pending d n Hinv E) as [Hinv' _].
      destruct (IH _ _ Hinv') as [H1 [H2 [H3 [H4 H5]]]].
      repeat split; auto.
      intros x Hx. apply H5. apply in_or_app. now left.
    + destruct Hinv as [_ [Hndd [_ [Hcov [Hord Htb]]]]].
      repeat split; auto.
      * intros x Hx. apply Hcov. now right.
      * intros x Hx; exact Hx.
Qed.

Lemma kahn_complete f pending d :
  kahn_inv es ns pending d ->
  (forall a b, In (a, b) es -> In a ns) ->
  ~ has_cycle es ->
  length pending <= f ->
  forall x, In x ns -> In x (kahn f es pending d).
Proof.
  revert pending d; induction f as [|f IH]; intros pending d Hinv Hsrc Hacyc Hlen x Hx.
  - destruct pending; [|simpl in Hlen; lia].
    destruct Hinv as [_ [_ [_ [Hcov _]]]]. apply Hcov in Hx.
    destruct Hx as [[]|Hx]. exact Hx.
  - simpl. destruct (least (filter (ready es d) pending)) as [n|] eqn:E.
    + destruct (kahn_inv_step pending d n Hinv E) as [Hinv' Hn].
      apply IH; auto.
      pose proof (remove_name_length n pending Hn). lia.
    + destruct Hinv as [Hndp [Hndd [Hdisj [Hcov [Hord Htb]]]]].
      destruct pending as [|y p].
      * apply Hcov in Hx. destruct Hx as [[]|Hx]. exact Hx.
      * exfalso. apply Hacyc.
        apply stuck_has_cycle with (y :: p) d; [discriminate| |].
        -- intros z Hz. destruct (ready es d z) eqn:Er; [|reflexivity].
           exfalso.
           destruct (least_exists (filter (ready es d) (y :: p))) as [m Hm].
           ++ intros Hnil. assert (Hzf : In z (filter (ready es d) (y :: p)))
                by (apply filter_In; auto).
              rewrite Hnil in Hzf. destruct Hzf.
           ++ congruence.
        -- intros a b Hab Had. apply Hsrc in Hab. apply Hcov in Hab.
           destruct Hab; [assumption|contradiction].
Qed.

End Kahn.

(** ** Positions in the emitted order *)

Lemma index_of_lt x l : In x l -> index_of x l < length l.
Proof.
  induction l as [|y l IH]; simpl; [intros []|].
  destruct (String.eqb_spec y x); [lia|].
  intros [->|H]; [congruence|specialize (IH H); lia].
Qed.

Lemma index_of_app_in x l1 l2 : In x l1 -> index_of x (l1 ++ l2) = index_of x l1.
Proof.
  induction l1 as [|y l1 IH]; simpl; [intros []|].
  destruct (String.eqb_spec y x); [reflexivity|].
  intros [->|H]; [congruence|]. now rewrite IH.
Qed.

Lemma index_of_app_notin x l1 l2 :
  ~ In x l1 -> index_of x (l1 ++ l2) = length l1 + index_of x l2.
Proof.
  induction l1 as [|y l1 IH]; simpl; [reflexivity|].
  intros H. destruct (String.eqb_spec y x); [exfalso; apply H; now left|].
  rewrite IH; [reflexivity|]. intros Hx; apply H; now right.
Qed.

Lemma ordered_index es order a b :
  NoDup order -> ordered es order -> In (a, b) es -> In b order ->
  In a order /\ index_of a order < index_of b order.
Proof.
  intros Hnd Hord Hab Hb.
  destruct (in_split b order Hb) as [l1 [l2 ->]].
  assert (Ha : In a l1) by (eapply Hord; eauto).
  assert (Hb1 : ~ In b l1).
  { intros H. apply (NoDup_remove_2 l1 l2 b Hnd). apply in_or_app. now left. }
  split; [apply in_or_app; now left|].
  rewrite (index_of_app_in a l1), (index_of_app_notin b l1); [|assumption|assumption].
  simpl. rewrite String.eqb_refl. pose proof (index_of_lt a l1 Ha). lia.
Qed.

Lemma edges_ordered_spec es order :
  edges_ordered es order = true <->
  forall a b, In (a, b) es ->
    In a order /\ In b order /\ index_of a order < index_of b order.
Proof.
  unfold edges_ordered. rewrite forallb_forall. split.
  - intros H a b Hab. specialize (H _ Hab). simpl in H.
    apply andb_true_iff in H. destruct H as [H Hlt].
    apply andb_true_iff in H. destruct H as [Ha Hb].
    apply mem_In in Ha, Hb. apply Nat.ltb_lt in Hlt. auto.
  - intros H [a b] Hab. destruct (H a b Hab) as [Ha [Hb Hlt]]. simpl.
    apply mem_In in Ha, Hb. apply Nat.ltb_lt in Hlt. now rewrite Ha, Hb, Hlt.
Qed.

Lemma edges_ordered_acyclic es order :
  edges_ordered es order = true -> ~ has_cycle es.
Proof.
  intros H [x [y [Hxy Hyx]]].
  rewrite edges_ordered_spec in H.
  assert (Hle : forall u v, reaches es u v -> index_of u order <= index_of v order).
  { induction 1 as [u|u w v Huw _ IH]; [lia|].
    destruct (H u w Huw) as [_ [_ Hlt]]. lia. }
  destruct (H x y Hxy) as [_ [_ Hlt]].
  specialize (Hle y x Hyx). lia.
Qed.

Lemma emit_names i l : map op_name (emit_from i l) = l.
Proof.
  revert i; induction l as [|x l IH]; intros i; simpl; [reflexivity|].
  now rewrite IH.
Qed.

Lemma emit_In i l x :
  In x l -> In (mkOp x Create (i + index_of x l)) (emit_from i l).
Proof.
  revert i; induction l as [|y l IH]; intros i; simpl; [intros []|].
  destruct (String.eqb_spec y x) as [->|Hyx].
  - intros _. left. now rewrite Nat.add_0_r.
  - intros [->|H]; [congruence|]. right.
    replace (i + Datatypes.S (index_of x l)) with (Datatypes.S i + index_of x l)
      by lia.
    now apply IH.
Qed.

Lemma emit_index i l l1 o l2 :
  emit_from i l = l1 ++ o :: l2 -> op_index o = i + length l1.
Proof.
  revert i l1; induction l as [|x l IH]; intros i l1 H; simpl in H.
  - destruct l1; discriminate.
  - destruct l1 as [|o' l1]; simpl in H; injection H as H1 H2.
    + subst o. simpl. lia.
    + apply IH in H2. simpl. lia.
Qed.

(** On a well-formed acyclic topology Kahn's algorithm emits every node. *)
Lemma kahn_total t :
  wf_topology t -> ~ has_cycle (edges t) ->
  let order := kahn (length (names t)) (edges t) (names t) [] in
  NoDup order /\ (forall x, In x (names t) <-> In x order) /\
  ordered (edges t) order /\ tiebreak (edges t) (names t) order /\
  length order = length (names t).
Proof.
  intros [Hnd Hwf] Hacyc order.
  pose proof (kahn_inv_init (edges t) (names t) Hnd) as Hinv.
  destruct (kahn_result (edges t) (names t) (length (names t)) _ _ Hinv)
    as [H1 [H2 [H3 [H4 _]]]].
  pose proof (kahn_complete (edges t) (names t) (length (names t)) _ _ Hinv)
    as Hc.
  assert (Hall : forall x, In x (names t) -> In x order).
  { apply Hc; [|assumption|lia]. intros a b Hab. now apply (Hwf a b). }
  repeat split; auto.
  pose proof (NoDup_incl_length H1 H2).
  pose proof (NoDup_incl_length Hnd Hall). fold order in H. lia.
Qed.

Lemma plan_ok t :
  wf_topology t -> ~ has_cycle (edges t) ->
  plan t = Ok (emit_from 0 (kahn (length (names t)) (edges t) (names t) [])).
Proof.
  intros Hwf Hacyc.
  destruct (kahn_total t Hwf Hacyc) as [Hnd [Hall [Hord [_ Hlen]]]].
  unfold plan. rewrite Hlen, Nat.eqb_refl.
  assert (Hchk : edges_ordered (edges t)
                   (kahn (length (names t)) (edges t) (names t) []) = true).
  { apply edges_ordered_spec. intros a b Hab.
    destruct Hwf as [_ Hwf]. destruct (Hwf a b Hab) as [_ Hb].
    apply Hall in Hb.
    destruct (ordered_index _ _ a b Hnd Hord Hab Hb) as [Ha Hlt]. auto. }
  now rewrite Hchk.
Qed.

Example plan_topology_ABC :
  plan topology_ABC = Ok [mkOp "A" Create 0; mkOp "B" Create 1; mkOp "C" Create 2].
Proof. reflexivity. Qed.

(** C1 (amended): on every valid topology (unique names, every edge between
    existing nodes, no cycle) the Plan Emitter succeeds and emits one
    operation per node, indexed by position; for every edge [(from, to)]
    the operation of [from] has a smaller index than that of [to]; and each
    operation names the least logical name among the nodes whose
    dependencies were all emitted before it (Kahn's tie-break). *)
Theorem plan_topological (t : Topology) :
  wf_topology t -> ~ has_cycle (edges t) ->
  exists ops, plan t = Ok ops /\
    NoDup (map op_name ops) /\
    (forall n, In n (names t) <-> In n (map op_name ops)) /\
    (forall l1 o l2, ops = l1 ++ o :: l2 -> op_index o = length l1) /\
    (forall a b, In (a, b) (edges t) ->
       exists oa ob, In oa ops /\ In ob ops /\ op_name oa = a /\
         op_name ob = b /\ op_index oa < op_index ob) /\
    (forall l1 o l2, ops = l1 ++ o :: l2 ->
       forall m, In m (names t) -> ~ In m (map op_name l1) ->
       (forall p, In (p, m) (edges t) -> In p (map op_name l1)) ->
       String.leb (op_name o) m = true).
Proof.
  intros Hwf Hacyc.
  pose proof (plan_ok t Hwf Hacyc) as Hplan.
  destruct (kahn_total t Hwf Hacyc) as [Hnd [Hall [Hord [Htb _]]]].
  set (order := kahn (length (names t)) (edges t) (names t) []) in *.
  exists (emit_from 0 order). split; [exact Hplan|].
  rewrite emit_names. split; [exact Hnd|]. split; [exact Hall|].
  split; [intros l1 o l2 H; apply emit_index in H; lia|].
  split.
  - intros a b Hab.
    assert (Hb : In b order)
      by (apply Hall; destruct Hwf as [_ Hwf]; now apply (Hwf a b)).
    destruct (ordered_index _ _ a b Hnd Hord Hab Hb) as [Ha Hlt].
    exists (mkOp a Create (0 + index_of a order)),
           (mkOp b Create (0 + index_of b order)).
    repeat split; try (apply emit_In; assumption); simpl; lia.
  - intros l1 o l2 Hops m Hm Hml1 Hpreds.
    assert (Horder : order = map op_name l1 ++ op_name o :: map op_name l2).
    { rewrite <- (emit_names 0 order), Hops, map_app. reflexivity. }
    exact (Htb _ _ _ Horder m Hm Hml1 Hpreds).
Qed.

Lemma plan_topological_witness :
  wf_topology topology_ABC /\ ~ has_cycle (edges topology_ABC) /\
  exists ops, plan topology_ABC = Ok ops.
Proof.
  assert (Hwf : wf_topology topology_ABC).
  { split.
    - unfold names; simpl. repeat constructor; simpl; intuition discriminate.
    - intros a b Hab. simpl in Hab.
      repeat (destruct Hab as [Hab|Hab]; [injection Hab as <- <-; simpl; tauto|]).
      destruct Hab. }
  assert (Hacyc : ~ has_cycle (edges topology_ABC)).
  { apply edges_ordered_acyclic with ["A"; "B"; "C"]. reflexivity. }
  split; [exact Hwf|]. split; [exact Hacyc|].
  destruct (plan_topological topology_ABC Hwf Hacyc) as [ops [Hops _]].
  exists ops. exact Hops.
Defined.

(** C1 as stated fails: nodes unrelated by any dependency are not always
    emitted in name order.  With the single dependency [c -> a], the nodes
    [a] and [b] are unrelated and ["a" < "b"], yet [b] is emitted first. *)
Lemma plan_unrelated_name_order_counterexample :
  ~ (forall t, wf_topology t -> ~ has_cycle (edges t) ->
       exists ops, plan t = Ok ops /\
         forall oa ob, In oa ops -> In ob ops ->
           ~ reaches (edges t) (op_name oa) (op_name ob) ->
           ~ reaches (edges t) (op_name ob) (op_name oa) ->
           String.ltb (op_name oa) (op_name ob) = true ->
           op_index oa < op_index ob).
Proof.
  intros H.
  assert (Hwf : wf_topology topology_cab).
  { split.
    - unfold names; simpl. repeat constructor; simpl; intuition discriminate.
    - intros a b [Hab|[]]. injection Hab as <- <-. simpl. tauto. }
  assert (Hacyc : ~ has_cycle (edges topology_cab)).
  { apply edges_ordered_acyclic with ["b"; "c"; "a"]. reflexivity. }
  destruct (H topology_cab Hwf Hacyc) as [ops [Hplan Hord]].
  vm_compute in Hplan. injection Hplan as <-.
  assert (Hlt : op_index (mkOp "a" Create 2) < op_index (mkOp "b" Create 0)).
  { apply Hord.
    - simpl; tauto.
    - simpl; tauto.
    - simpl. intros Hr. apply reachable_from_spec in Hr.
      vm_compute in Hr. intuition discriminate.
    - simpl. intros Hr. apply reachable_from_spec in Hr.
      vm_compute in Hr. intuition discriminate.
    - reflexivity. }
  simpl in Hlt. lia.
Qed.

(** C2: an edge insertion that would close a cycle (its target already
    reaches its source) is refused by [addDependency] with [CycleDetected]
    and leaves the topology unchanged; a topology that contains a cycle is
    refused by the Plan Emitter with [CycleDetected], and deploying it
    makes no backend call. *)
Theorem cycle_detected :
  (forall t from to,
     In from (names t) -> In to (names t) -> reaches (edges t) to from ->
     addDependency t from to = (Err CycleDetected, t)) /\
  (forall t backend, has_cycle (edges t) ->
     plan t = Err CycleDetected /\ deploy backend t = (Err CycleDetected, [])).
Proof.
  split.
  - intros t from to Hf Ht Hr. unfold addDependency.
    apply mem_In in Hf, Ht. rewrite Hf, Ht. simpl.
    apply reachable_from_spec, mem_In in Hr. now rewrite Hr.
  - intros t backend Hcyc.
    assert (Hplan : plan t = Err CycleDetected).
    { unfold plan.
      destruct (Nat.eqb _ _); [|reflexivity].
      destruct (edges_ordered _ _) eqn:E; [|reflexivity].
      exfalso. exact (edges_ordered_acyclic _ _ E Hcyc). }
    split; [exact Hplan|]. unfold deploy. now rewrite Hplan.
Qed.

Lemma cycle_detected_witness :
  addDependency topology_ABC "C" "A" = (Err CycleDetected, topology_ABC) /\
  plan (mkTopology [mkNode "x" Network []; mkNode "y" Network []]
                   [("x", "y"); ("y", "x")]) = Err CycleDetected.
Proof.
  split.
  - apply (proj1 cycle_detected).
    + simpl; tauto.
    + simpl; tauto.
    + apply reaches_step with "B"; [simpl; tauto|].
      apply reaches_step with "C"; [simpl; tauto|]. apply reaches_refl.
  - apply (proj2 cycle_detected (mkTopology [mkNode "x" Network []; mkNode "y" Network []]
                   [("x", "y"); ("y", "x")]) (fun _ => true)).
    exists "x", "y". split; [simpl; tauto|].
    apply reaches_step with "x"; [simpl; tauto|]. apply reaches_refl.
Defined.

(** ** Topology construction *)

(** C6: [addNode] with a name already bound fails with [DuplicateName] and
    returns the topology unchanged; with a fresh name it succeeds, returns a
    reference to the new node, appends exactly that node and adds no edge. *)
Theorem addNode_duplicate (t : Topology) (n : string) (k : Kind)
    (config : list (string * string)) :
  (In n (names t) -> addNode t n k config = (Err DuplicateName, t)) /\
  (~ In n (names t) ->
   addNode t n k config =
   (Ok (mkNodeRef n), mkTopology (nodes t ++ [mkNode n k config]) (edges t))).
Proof.
  unfold addNode. split.
  - intros H. apply mem_In in H. now rewrite H.
  - intros H. apply mem_false in H. now rewrite H.
Qed.

Lemma addNode_duplicate_witness :
  addNode topology_ABC "B" Network [] = (Err DuplicateName, topology_ABC).
Proof.
  apply (proj1 (addNode_duplicate topology_ABC "B" Network [])).
  simpl; tauto.
Defined.

(** ** Endpoint resolution *)

Lemma find_app_some {A} (f : A -> bool) l1 l2 x :
  find f l1 = Some x -> find f (l1 ++ l2) = Some x.
Proof.
  induction l1 as [|y l1 IH]; simpl; [discriminate|].
  destruct (f y); auto.
Qed.

Lemma lookup_node_absent t n : ~ In n (names t) -> lookup_node t n = None.
Proof.
  intros Hn. unfold lookup_node.
  destruct (find _ _) as [nd|] eqn:E; [|reflexivity].
  exfalso. apply find_some in E. destruct E as [Hin Heq].
  apply String.eqb_eq in Heq. apply Hn. unfold names.
  rewrite <- Heq. now apply in_map.
Qed.

Lemma protocol_eqb_eq p q : protocol_eqb p q = true -> p = q.
Proof. destruct p, q; simpl; congruence. Qed.

Lemma cache_ok_resolve t c n p :
  cache_ok t c -> cache_ok t (snd (resolve c t n p)).
Proof.
  intros Hok. unfold resolve.
  destruct (cache_lookup c n p) as [d|] eqn:Ec; [exact Hok|].
  destruct (resolve_uncached t n p) as [d|e] eqn:Er; [|exact Hok].
  simpl. intros m q d' Hl. simpl in Hl.
  destruct (String.eqb n m && protocol_eqb p q) eqn:E.
  - apply andb_true_iff in E. destruct E as [Em Ep].
    apply String.eqb_eq in Em. apply protocol_eqb_eq in Ep. subst m q.
    injection Hl as <-. exact Er.
  - now apply Hok.
Qed.

Lemma resolve_value t c n p :
  cache_ok t c -> fst (resolve c t n p) = resolve_uncached t n p.
Proof.
  intros Hok. unfold resolve.
  destruct (cache_lookup c n p) as [d|] eqn:Ec.
  - simpl. symmetry. now apply Hok.
  - destruct (resolve_uncached t n p); reflexivity.
Qed.

(** Growing the topology keeps every cached descriptor valid. *)
Lemma cache_ok_addNode t c name k cfg r t' :
  cache_ok t c -> addNode t name k cfg = (r, t') -> cache_ok t' c.
Proof.
  intros Hok Hadd m q d Hl.
  specialize (Hok m q d Hl).
  unfold addNode in Hadd. destruct (mem name (names t)).
  - now injection Hadd as _ <-.
  - injection Hadd as _ <-.
    unfold resolve_uncached, lookup_node in *. simpl.
    destruct (find _ (nodes t)) as [nd|] eqn:E; [|discriminate].
    now rewrite (find_app_some _ _ _ _ E).
Qed.

Lemma cache_ok_addDependency t c from to r t' :
  cache_ok t c -> addDependency t from to = (r, t') -> cache_ok t' c.
Proof.
  intros Hok Hadd.
  assert (Hn : nodes t' = nodes t).
  { unfold addDependency in Hadd.
    destruct (negb _); [now injection Hadd as _ <-|].
    destruct (mem _ _); [now injection Hadd as _ <-|].
    now injection Hadd as _ <-. }
  intros m q d Hl. specialize (Hok m q d Hl).
  unfold resolve_uncached, lookup_node in *. now rewrite Hn.
Qed.

(** C5: resolution is a function of the topology: with a consistent cache,
    [resolve] returns the descriptor the topology determines, keeps the
    cache consistent, caches every descriptor it returns under its
    (producer, protocol) pair, returns the same result when called again,
    and the cache stays consistent across the node and edge additions of
    the topology build. *)
Theorem resolve_deterministic (t : Topology) (c : ResolverCache) (n : string)
    (p : Protocol) :
  cache_ok t c ->
  fst (resolve c t n p) = resolve_uncached t n p /\
  cache_ok t (snd (resolve c t n p)) /\
  (forall d, fst (resolve c t n p) = Ok d ->
     cache_lookup (snd (resolve c t n p)) n p = Some d) /\
  fst (resolve (snd (resolve c t n p)) t n p) = fst (resolve c t n p) /\
  (forall name k cfg r t', addNode t name k cfg = (r, t') ->
     cache_ok t' (snd (resolve c t n p))) /\
  (forall from to r t', addDependency t from to = (r, t') ->
     cache_ok t' (snd (resolve c t n p))).
Proof.
  intros Hok.
  pose proof (cache_ok_resolve t c n p Hok) as Hok'.
  split; [now apply resolve_value|].
  split; [exact Hok'|].
  split.
  - unfold resolve. destruct (cache_lookup c n p) as [d|] eqn:Ec.
    + simpl. now intros d' [= <-].
    + destruct (resolve_uncached t n p) as [d|e]; simpl; [|discriminate].
      intros d' [= <-]. now rewrite !String.eqb_refl; destruct p.
  - split; [rewrite !resolve_value; auto|].
    split.
    + intros name k cfg r t' H. now apply cache_ok_addNode with t name k cfg r.
    + intros from to r t' H. now apply cache_ok_addDependency with t from to r.
Qed.

Lemma resolve_deterministic_witness :
  fst (resolve (snd (resolve [] topology_ABC "B" PCache)) topology_ABC "B" PCache)
  = Ok (mkEndpoint "B" PCache "redis://B:6379/0").
Proof.
  assert (Hok : cache_ok topology_ABC []) by (intros m q d H; discriminate H).
  destruct (resolve_deterministic topology_ABC [] "B" PCache Hok)
    as [H1 [_ [_ [H4 _]]]].
  rewrite H4, H1. reflexivity.
Defined.

(** C7: with a consistent cache, [resolve] fails with [UnknownNode] for an
    absent producer and with [UnsupportedProtocol] for a producer whose
    kind does not offer the protocol; in particular a network offers no
    cache endpoint and a cache offers no discovery-dns endpoint. *)
Theorem resolve_errors (t : Topology) (c : ResolverCache) :
  cache_ok t c ->
  (forall n p, ~ In n (names t) -> fst (resolve c t n p) = Err UnknownNode) /\
  (forall n p nd, lookup_node t n = Some nd -> supports (node_kind nd) p = false ->
     fst (resolve c t n p) = Err UnsupportedProtocol) /\
  supports Network PCache = false /\ supports Cache PDiscoveryDns = false.
Proof.
  intros Hok. split; [|split; [|split; reflexivity]].
  - intros n p Hn. rewrite resolve_value by exact Hok.
    unfold resolve_uncached. now rewrite lookup_node_absent.
  - intros n p nd Hl Hs. rewrite resolve_value by exact Hok.
    unfold resolve_uncached. now rewrite Hl, Hs.
Qed.

Lemma resolve_errors_witness :
  fst (resolve [] topology_ABC "A" PCache) = Err UnsupportedProtocol /\
  fst (resolve [] topology_ABC "Z" PHttp) = Err UnknownNode.
Proof.
  assert (Hok : cache_ok topology_ABC []) by (intros m q d H; discriminate H).
  destruct (resolve_errors topology_ABC [] Hok) as [Hunk [Hunsup _]].
  split.
  - apply Hunsup with (mkNode "A" Network []); reflexivity.
  - apply Hunk. simpl. intuition discriminate.
Defined.

(** ** Autoscaler validation *)

Lemma in_range_both r1 r2 x :
  in_range r1 x /\ in_range r2 x <->
  in_range (lo_max (fst r1) (fst r2), hi_min (snd r1) (snd r2)) x.
Proof.
  destruct r1 as [[a1|] [b1|]], r2 as [[a2|] [b2|]];
    unfold in_range; simpl; intuition lia.
Qed.

Lemma overlapb_spec r1 r2 :
  overlapb r1 r2 = true <-> exists x, in_range r1 x /\ in_range r2 x.
Proof.
  unfold overlapb.
  setoid_rewrite in_range_both.
  destruct (lo_max (fst r1) (fst r2)) as [a|], (hi_min (snd r1) (snd r2)) as [b|];
    unfold in_range; simpl.
  - rewrite Z.leb_le. split; [intros H; exists a; lia | intros [x Hx]; lia].
  - split; [intros _; exists a; lia | reflexivity].
  - split; [intros _; exists b; lia | reflexivity].
  - split; [intros _; exists 0%Z; tauto | reflexivity].
Qed.

Lemma forallb_false_exists {A} (f : A -> bool) l :
  forallb f l = false -> exists x, In x l /\ f x = false.
Proof.
  induction l as [|y l IH]; simpl; [discriminate|].
  destruct (f y) eqn:E; simpl.
  - intros H. destruct (IH H) as [x [Hx Hf]]. exists x. auto.
  - intros _. exists y. auto.
Qed.

Lemma no_overlap_false (steps : list Range) :
  no_overlap steps = false <->
  exists l1 s l2 u l3, steps = l1 ++ s :: l2 ++ u :: l3 /\ overlapb s u = true.
Proof.
  split.
  - induction steps as [|s rest IH]; simpl; [discriminate|].
    intros H. apply andb_false_iff in H. destruct H as [H|H].
    + apply forallb_false_exists in H.
      destruct H as [u [Hu Hov]]. apply negb_false_iff in Hov.
      destruct (in_split u rest Hu) as [l2 [l3 ->]].
      exists [], s, l2, u, l3. auto.
    + destruct (IH H) as [l1 [s' [l2 [u [l3 [-> Hov]]]]]].
      exists (s :: l1), s', l2, u, l3. auto.
  - intros [l1 [s [l2 [u [l3 [-> Hov]]]]]].
    induction l1 as [|x l1 IH]; simpl.
    + apply andb_false_iff. left.
      apply not_true_iff_false. rewrite forallb_forall. intros H.
      assert (Hu : In u (l2 ++ u :: l3)) by (apply in_or_app; right; now left).
      specialize (H u Hu).
      rewrite Hov in H. discriminate.
    + rewrite IH. apply andb_false_r.
Qed.

(** C3: the autoscaler builder's [validate] fails with [InvalidConfig] when
    the ranges of two entries of the step table share a metric value, and
    passes the overlap check when no two entries' ranges do. *)
Theorem validate_overlap (cfg : AutoscalerConfig) :
  (overlapping_pair (step_table cfg) -> validate_autoscaler cfg = Err InvalidConfig) /\
  (~ overlapping_pair (step_table cfg) -> validate_autoscaler cfg = Ok tt).
Proof.
  unfold validate_autoscaler, overlapping_pair. split.
  - intros [l1 [s [l2 [u [l3 [Heq Hx]]]]]].
    assert (H : no_overlap (step_ranges (step_table cfg)) = false).
    { apply no_overlap_false. exists l1, s, l2, u, l3.
      split; [exact Heq|]. now apply overlapb_spec. }
    now rewrite H.
  - intros Hno. destruct (no_overlap (step_ranges (step_table cfg))) eqn:E;
      [reflexivity|].
    exfalso. apply no_overlap_false in E.
    destruct E as [l1 [s [l2 [u [l3 [Heq Hov]]]]]].
    apply Hno. exists l1, s, l2, u, l3. split; [exact Heq|].
    now apply overlapb_spec.
Qed.

Lemma validate_overlap_witness :
  validate_autoscaler
    (mkAutoscaler "service"
       [mkStep (UpperBound 10) (-1); mkStep (LowerBound 5) 1]) = Err InvalidConfig /\
  validate_autoscaler
    (mkAutoscaler "service"
       [mkStep (UpperBound 10) (-1); mkStep (LowerBound 50) 1;
        mkStep (LowerBound 70) 3]) = Ok tt.
Proof.
  split.
  - apply (proj1 (validate_overlap (mkAutoscaler "service"
         [mkStep (UpperBound 10) (-1); mkStep (LowerBound 5) 1]))).
    exists [], (None, Some 10%Z), [], (Some 5%Z, None), [].
    split; [reflexivity|]. exists 7%Z. unfold in_range; simpl; lia.
  - apply (proj2 (validate_overlap (mkAutoscaler "service"
         [mkStep (UpperBound 10) (-1); mkStep (LowerBound 50) 1;
          mkStep (LowerBound 70) 3]))).
    intros [l1 [r [l2 [r' [l3 [Heq Hx]]]]]].
    assert (H : no_overlap (step_ranges
              [mkStep (UpperBound 10) (-1); mkStep (LowerBound 50) 1;
               mkStep (LowerBound 70) 3]) = false).
    { apply no_overlap_false. exists l1, r, l2, r', l3.
      split; [exact Heq|]. now apply overlapb_spec. }
    vm_compute in H. discriminate.
Defined.

(** The step table that the stack passes to [scaleOnMetric] ([{upper:10}],
    [{lower:50}], [{lower:70}]) covers [x <= 10], [50 <= x <= 69] and
    [70 <= x], and passes the overlap check. *)
Lemma stack_scaling_steps_valid (id : string) :
  step_ranges (map step_of_interval
    (ApplicationStack.st_scalingSteps (ApplicationStack.application_stack id))) =
  [(None, Some 10%Z); (Some 50%Z, Some 69%Z); (Some 70%Z, None)] /\
  validate_autoscaler
    (mkAutoscaler "default"
       (map step_of_interval
          (ApplicationStack.st_scalingSteps
             (ApplicationStack.application_stack id)))) = Ok tt.
Proof. split; reflexivity. Qed.

(** Out of order, two lower bounds keep their unbounded ranges and
    overlap. *)
Example validate_unordered_lower_bounds :
  validate_autoscaler
    (mkAutoscaler "service"
       [mkStep (LowerBound 70) 3; mkStep (LowerBound 50) 1]) = Err InvalidConfig.
Proof. reflexivity. Qed.

(** ** Namespace registration *)

Lemma register_ci_unique ns name :
  ci_unique ns -> ci_unique (snd (register ns name)).
Proof.
  unfold register, ci_unique.
  destruct (existsb _ _) eqn:E; simpl; [auto|].
  intros Hnd. rewrite map_app. simpl. apply NoDup_snoc; [assumption|].
  intros Hin. apply in_map_iff in Hin. destruct Hin as [x [Hx Hin]].
  assert (Hex : existsb (fun x => String.eqb (lowercase x) (lowercase name))
                  (ns_services ns) = true).
  { apply existsb_exists. exists x. split; [assumption|].
    apply String.eqb_eq. exact Hx. }
  congruence.
Qed.

Lemma register_all_ci_unique ns l :
  ci_unique ns -> ci_unique (snd (register_all ns l)).
Proof.
  revert ns; induction l as [|n l IH]; intros ns H; simpl; [exact H|].
  destruct (register ns n) as [r ns1] eqn:E1.
  destruct (register_all ns1 l) as [rs ns2] eqn:E2. simpl.
  specialize (IH ns1). rewrite E2 in IH. apply IH.
  pose proof (register_ci_unique ns n H) as H1. now rewrite E1 in H1.
Qed.

(** C8: after any sequence of registrations on a namespace whose names are
    unique up to case, the names are still unique up to case; the five
    names the application stack registers on its namespace are all
    accepted. *)
Theorem namespace_names_unique :
  (forall ns l, ci_unique ns -> ci_unique (snd (register_all ns l))) /\
  (forall id,
     fst (register_all (mkNamespace "anycompany.internal" [])
            (map ApplicationStack.reg_name
               (ApplicationStack.st_registrations
                  (ApplicationStack.application_stack id))))
     = [Ok tt; Ok tt; Ok tt; Ok tt; Ok tt]).
Proof.
  split; [exact register_all_ci_unique|].
  intros id. rewrite StackFacts.application_stack_registrations.
  vm_compute. reflexivity.
Qed.

Lemma namespace_names_unique_witness :
  ci_unique (snd (register_all (mkNamespace "anycompany.internal" [])
                    ["image"; "catalog"; "Cart"; "cart"])).
Proof.
  apply (proj1 namespace_names_unique). constructor.
Defined.

End EngineFacts.
